(** * liburing [barrier.h]: the memory-ordering primitives

    A shallow embedding of [src/include/liburing/barrier.h].  The header has
    two build-time realizations of the same small interface:

    - under [__cplusplus], templates that forward to [std::atomic_*_explicit];
    - otherwise, macros made of volatile accesses and inline assembly
      (x86, after [arch/x86/include/asm/barrier.h]).

    Each primitive is embedded as a computation over one execution context's
    view of a byte-addressed memory.  A computation updates the memory, and
    records in a trace every access and every [asm] statement it goes through,
    so that "which steps, in which order, and which instructions" can be
    stated.  What other contexts observe, and when, is not part of this
    embedding. *)

From Stdlib Require Import ZArith Lia List.
From stdpp Require Import base option list gmap.
From coqutil Require Import Byte Word.LittleEndianList.
Local Open Scope Z_scope.

(** ** Targets and word types *)

(** The fallback path tests [__i386__]; everything else is treated by the
    header as x86-64. *)
Inductive arch := I386 | X86_64.

(** The types the shared word is instantiated at: the fixed-width unsigned
    integers and a pointer. *)
Inductive ctype := U8 | U16 | U32 | U64 | Ptr.

Definition sizeof (tgt : arch) (t : ctype) : nat :=
  match t with
  | U8 => 1
  | U16 => 2
  | U32 => 4
  | U64 => 8
  | Ptr => match tgt with I386 => 4 | X86_64 => 8 end
  end%nat.

Definition bits (tgt : arch) (t : ctype) : Z := Z.of_nat (sizeof tgt t) * 8.

(** The values a word of type [t] can hold. *)
Definition in_range (tgt : arch) (t : ctype) (v : Z) : Prop :=
  0 <= v < 2 ^ bits tgt t.

(** ** Byte-addressed memory (little endian, as on x86) *)

Fixpoint load_bytes (m : gmap Z byte) (a : Z) (n : nat) : option (list byte) :=
  match n with
  | O => Some []
  | S n' =>
      match m !! a with
      | Some b =>
          match load_bytes m (a + 1) n' with
          | Some bs => Some (b :: bs)
          | None => None
          end
      | None => None
      end
  end.

(** A store only succeeds on bytes that are already mapped. *)
Fixpoint store_bytes (m : gmap Z byte) (a : Z) (bs : list byte)
  : option (gmap Z byte) :=
  match bs with
  | [] => Some m
  | b :: bs' =>
      match m !! a with
      | Some _ => store_bytes (<[a := b]> m) (a + 1) bs'
      | None => None
      end
  end.

Fixpoint mappedb (m : gmap Z byte) (a : Z) (n : nat) : bool :=
  match n with
  | O => true
  | S n' => bool_decide (is_Some (m !! a)) && mappedb m (a + 1) n'
  end.

Definition alignedb (a : Z) (n : nat) : bool := a mod Z.of_nat n =? 0.

(** A valid word of type [t] at address [a]: [a] is naturally aligned for
    [t] and all bytes of the word are mapped. *)
Definition valid_accessb (tgt : arch) (m : gmap Z byte) (t : ctype) (a : Z)
  : bool :=
  alignedb a (sizeof tgt t) && mappedb m a (sizeof tgt t).

Definition valid_access (tgt : arch) (m : gmap Z byte) (t : ctype) (a : Z)
  : Prop :=
  valid_accessb tgt m t a = true.

(** An access of type [t] at address [a] reads or writes the [sizeof t]
    bytes from [a] on.  The header checks nothing and x86 performs the
    access at any alignment: only an unmapped byte makes it undefined. *)
Definition load (tgt : arch) (m : gmap Z byte) (t : ctype) (a : Z) : option Z :=
  le_combine <$> load_bytes m a (sizeof tgt t).

Definition store (tgt : arch) (m : gmap Z byte) (t : ctype) (a : Z) (v : Z)
  : option (gmap Z byte) :=
  store_bytes m a (le_split (sizeof tgt t) v).

(** ** Inline assembly *)

(** The instructions that occur in the header's [asm] templates.  The
    locked add names its memory operand as a displacement off the stack
    pointer: [lock; addl $imm, disp(%esp)] (or [%rsp]). *)
Inductive insn :=
| MFENCE
| LFENCE
| SFENCE
| LOCK_ADDL (imm : Z) (disp : Z).

Inductive clobber := Cmemory | Ccc.

(** ** What a computation records *)

Inductive memory_order :=
| memory_order_relaxed
| memory_order_consume
| memory_order_acquire
| memory_order_release
| memory_order_acq_rel
| memory_order_seq_cst.

Inductive event :=
| EvVolatileStore (t : ctype) (a : Z) (v : Z)
| EvVolatileLoad (t : ctype) (a : Z) (v : Z)
| EvAtomicStore (o : memory_order) (t : ctype) (a : Z) (v : Z)
| EvAtomicLoad (o : memory_order) (t : ctype) (a : Z) (v : Z)
| EvAsm (template : list insn) (clobbers : list clobber).

(** The arithmetic flags, written by [addl]. *)
Record eflags := {
  CF : bool; PF : bool; AF : bool; ZF : bool; SF : bool; OF : bool
}.

Record machine := {
  mem : gmap Z byte;
  sp : Z;
  flags : eflags;
  trace : list event
}.

Definition with_mem (m : gmap Z byte) (s : machine) : machine :=
  {| mem := m; sp := sp s; flags := flags s; trace := trace s |}.

Definition with_flags (f : eflags) (s : machine) : machine :=
  {| mem := mem s; sp := sp s; flags := f; trace := trace s |}.

Definition log (e : event) (s : machine) : machine :=
  {| mem := mem s; sp := sp s; flags := flags s; trace := trace s ++ [e] |}.

(** ** Computations: state passing, [None] for an undefined access *)

Definition M (A : Type) : Type := machine -> option (A * machine).

Definition ret {A} (x : A) : M A := fun s => Some (x, s).

Definition bind {A B} (c : M A) (k : A -> M B) : M B :=
  fun s =>
    match c s with
    | Some (x, s') => k x s'
    | None => None
    end.

Declare Scope comp_scope.
Delimit Scope comp_scope with comp.
Notation "'do' x <- c ; k" := (bind c (fun x => k))
  (at level 10, x name, c at level 100, k at level 200) : comp_scope.
Notation "c ;; k" := (bind c (fun _ => k))
  (at level 100, k at level 200, right associativity) : comp_scope.
Local Open Scope comp_scope.

(** Final memory and result of a run, forgetting the trace and the flags. *)
Definition outcome {A} (r : option (A * machine)) : option (A * gmap Z byte) :=
  match r with
  | Some (x, s) => Some (x, mem s)
  | None => None
  end.

(** The trace a run adds to the one it started with. *)
Definition emitted {A} (s : machine) (r : option (A * machine))
  : option (list event) :=
  match r with
  | Some (_, s') => Some (drop (length (trace s)) (trace s'))
  | None => None
  end.

(** ** Primitive accesses *)

(** Conversion of a value to the unsigned type [t]. *)
Definition wrap (tgt : arch) (t : ctype) (v : Z) : Z := v mod 2 ^ bits tgt t.

(** [*(volatile t * )a = v]. *)
Definition volatile_store (tgt : arch) (t : ctype) (a v : Z) : M unit :=
  fun s =>
    match store tgt (mem s) t a v with
    | Some m' =>
        Some (tt, log (EvVolatileStore t a (wrap tgt t v)) (with_mem m' s))
    | None => None
    end.

(** [*(volatile t * )a]. *)
Definition volatile_load (tgt : arch) (t : ctype) (a : Z) : M Z :=
  fun s =>
    match load tgt (mem s) t a with
    | Some v => Some (v, log (EvVolatileLoad t a v) s)
    | None => None
    end.

(** [std::atomic_store_explicit] and [std::atomic_load_explicit] of
    [<atomic>], as seen by the calling context: an access of the whole
    object, tagged with the requested order. *)
Definition atomic_store_explicit (tgt : arch) (T : ctype) (obj desired : Z)
    (order : memory_order) : M unit :=
  fun s =>
    match store tgt (mem s) T obj desired with
    | Some m' =>
        Some (tt, log (EvAtomicStore order T obj (wrap tgt T desired))
                    (with_mem m' s))
    | None => None
    end.

Definition atomic_load_explicit (tgt : arch) (T : ctype) (obj : Z)
    (order : memory_order) : M Z :=
  fun s =>
    match load tgt (mem s) T obj with
    | Some v => Some (v, log (EvAtomicLoad order T obj v) s)
    | None => None
    end.

(** Flags after a 32-bit [add] of [y] to [x]. *)
Definition parity_even (r : Z) : bool :=
  Nat.even (length (filter (fun i => Z.testbit r i = true) [0; 1; 2; 3; 4; 5; 6; 7])).

Definition add_flags32 (x y : Z) : eflags :=
  let x := x mod 2 ^ 32 in
  let y := y mod 2 ^ 32 in
  let r := (x + y) mod 2 ^ 32 in
  {| CF := 2 ^ 32 <=? x + y;
     PF := parity_even r;
     AF := 16 <=? x mod 16 + y mod 16;
     ZF := r =? 0;
     SF := 2 ^ 31 <=? r;
     OF := Bool.eqb (2 ^ 31 <=? x) (2 ^ 31 <=? y)
           && negb (Bool.eqb (2 ^ 31 <=? r) (2 ^ 31 <=? x)) |}.

(** One instruction.  The three fences change nothing in this context's own
    state; the locked add is a 32-bit read-modify-write of the stack slot. *)
Definition exec_insn (i : insn) : M unit :=
  fun s =>
    match i with
    | MFENCE | LFENCE | SFENCE => Some (tt, s)
    | LOCK_ADDL imm disp =>
        let a := sp s + disp in
        match load_bytes (mem s) a 4 with
        | Some bs =>
            let x := le_combine bs in
            match store_bytes (mem s) a (le_split 4 (x + imm)) with
            | Some m' => Some (tt, with_flags (add_flags32 x imm) (with_mem m' s))
            | None => None
            end
        | None => None
        end
    end.

Fixpoint exec_insns (l : list insn) : M unit :=
  match l with
  | [] => ret tt
  | i :: l' => exec_insn i ;; exec_insns l'
  end.

(** [asm volatile(template ::: clobbers)]: the instructions of the template
    run, and the statement is recorded with its clobber list.  An empty
    template emits no instruction at all. *)
Definition asm_volatile (template : list insn) (clobbers : list clobber)
  : M unit :=
  exec_insns template ;;
  fun s => Some (tt, log (EvAsm template clobbers) s).

(** ** Reading a trace *)

(** The machine instructions emitted by inline assembly. *)
Definition insns_of (e : event) : list insn :=
  match e with
  | EvAsm template _ => template
  | _ => []
  end.

Definition emitted_insns (tr : list event) : list insn :=
  concat (map insns_of tr).

(** The accesses to memory made by a step: the C-level loads and stores, and
    the memory operands of assembly instructions. *)
Definition insn_accesses_memory (i : insn) : bool :=
  match i with
  | LOCK_ADDL _ _ => true
  | _ => false
  end.

Definition accesses_memory (e : event) : bool :=
  match e with
  | EvVolatileStore _ _ _ | EvVolatileLoad _ _ _
  | EvAtomicStore _ _ _ _ | EvAtomicLoad _ _ _ _ => true
  | EvAsm template _ => existsb insn_accesses_memory template
  end.

(** ** The native-atomics realization ([#ifdef __cplusplus]) *)

Module Cxx.
Section Target.
Variable tgt : arch.

Definition IO_URING_WRITE_ONCE (T : ctype) (var : Z) (val : Z) : M unit :=
  atomic_store_explicit tgt T var val memory_order_relaxed.

Definition IO_URING_READ_ONCE (T : ctype) (var : Z) : M Z :=
  atomic_load_explicit tgt T var memory_order_relaxed.

Definition io_uring_smp_store_release (T : ctype) (p : Z) (v : Z) : M unit :=
  atomic_store_explicit tgt T p v memory_order_release.

Definition io_uring_smp_load_acquire (T : ctype) (p : Z) : M Z :=
  atomic_load_explicit tgt T p memory_order_acquire.
End Target.
End Cxx.

(** ** The fallback realization ([#else]) *)

Module C.
Section Target.
Variable tgt : arch.

(** [__asm__ __volatile__("": : :"memory")] *)
Definition io_uring_barrier : M unit := asm_volatile [] [Cmemory].

(** [( *((volatile __typeof(val) * )(&(var))) = (val))].  [var] is the
    address of the lvalue and [tvar] its type, which the cast discards:
    the store goes through the type of [val]. *)
Definition IO_URING_WRITE_ONCE (tvar tval : ctype) (var : Z) (val : Z)
  : M unit :=
  volatile_store tgt tval var val.

(** [( *((volatile __typeof(var) * )(&(var))))] *)
Definition IO_URING_READ_ONCE (tvar : ctype) (var : Z) : M Z :=
  volatile_load tgt tvar var.

Definition io_uring_mb : M unit := asm_volatile [MFENCE] [Cmemory].
Definition io_uring_rmb : M unit := asm_volatile [LFENCE] [Cmemory].
Definition io_uring_wmb : M unit := asm_volatile [SFENCE] [Cmemory].
Definition io_uring_smp_rmb : M unit := io_uring_barrier.
Definition io_uring_smp_wmb : M unit := io_uring_barrier.

Definition io_uring_smp_mb : M unit :=
  match tgt with
  | I386 => asm_volatile [LOCK_ADDL 0 0] [Cmemory; Ccc]
  | X86_64 => asm_volatile [LOCK_ADDL 0 (-132)] [Cmemory; Ccc]
  end.

(** [p] points to an object of type [tp]; [v] has type [tv]. *)
Definition io_uring_smp_store_release (tp tv : ctype) (p : Z) (v : Z)
  : M unit :=
  io_uring_barrier ;;
  IO_URING_WRITE_ONCE tp tv p v.

Definition io_uring_smp_load_acquire (tp : ctype) (p : Z) : M Z :=
  do ___p1 <- IO_URING_READ_ONCE tp p;
  io_uring_barrier ;;
  ret ___p1.
End Target.
End C.

(** ** The interface that both realizations provide *)

Record primitives := {
  relaxed_write : ctype -> Z -> Z -> M unit;
  relaxed_read : ctype -> Z -> M Z;
  release_store : ctype -> Z -> Z -> M unit;
  acquire_load : ctype -> Z -> M Z
}.

Definition native (tgt : arch) : primitives := {|
  relaxed_write := Cxx.IO_URING_WRITE_ONCE tgt;
  relaxed_read := Cxx.IO_URING_READ_ONCE tgt;
  release_store := Cxx.io_uring_smp_store_release tgt;
  acquire_load := Cxx.io_uring_smp_load_acquire tgt
|}.

(** The fallback macros at matching operand types: a word of type [T]
    written with a value of type [T].  The macros themselves take the two
    types apart ([C.IO_URING_WRITE_ONCE tgt tvar tval]); [store_at] below
    keeps them apart. *)
Definition fallback (tgt : arch) : primitives := {|
  relaxed_write := fun T => C.IO_URING_WRITE_ONCE tgt T T;
  relaxed_read := C.IO_URING_READ_ONCE tgt;
  release_store := fun T => C.io_uring_smp_store_release tgt T T;
  acquire_load := C.io_uring_smp_load_acquire tgt
|}.

Inductive realization := Native | Fallback.

Definition realize (tgt : arch) (r : realization) : primitives :=
  match r with
  | Native => native tgt
  | Fallback => fallback tgt
  end.

(** ** A small machine to run the primitives on

    256 mapped bytes at addresses 0..255, byte [i] holding [0xFF - i], the
    stack pointer at 192. *)

Definition sample_mem : gmap Z byte :=
  list_to_map (map (fun i => (Z.of_nat i, byte.of_Z (255 - Z.of_nat i))) (seq 0 256)).

Definition sample_machine : machine := {|
  mem := sample_mem;
  sp := 192;
  flags := {| CF := false; PF := false; AF := false;
              ZF := false; SF := false; OF := false |};
  trace := []
|}.

(** ** Vocabulary for the statements *)

(** Address of the memory operand of the locked add in [io_uring_smp_mb]. *)
Definition stack_slot (tgt : arch) (s : machine) : Z :=
  sp s + match tgt with I386 => 0 | X86_64 => -132 end.

(** The store and the load of a realization, in their relaxed or in their
    ordered form. *)
Definition store_op (P : primitives) (ordered : bool)
  : ctype -> Z -> Z -> M unit :=
  if ordered then release_store P else relaxed_write P.

Definition load_op (P : primitives) (ordered : bool) : ctype -> Z -> M Z :=
  if ordered then acquire_load P else relaxed_read P.

(** A store with both operand types spelled out: [tword] is the type of
    the word and [tval] the type of the value.  A C++ template has the one
    parameter [T], the type of the word, and its [T val] argument is the
    value converted to it; the macros store through [__typeof(val)]. *)
Definition store_at (tgt : arch) (r : realization) (ordered : bool)
    (tword tval : ctype) (a v : Z) : M unit :=
  match r with
  | Native =>
      if ordered then Cxx.io_uring_smp_store_release tgt tword a v
      else Cxx.IO_URING_WRITE_ONCE tgt tword a v
  | Fallback =>
      if ordered then C.io_uring_smp_store_release tgt tword tval a v
      else C.IO_URING_WRITE_ONCE tgt tword tval a v
  end.

(** The type that store goes through. *)
Definition stored_type (r : realization) (tword tval : ctype) : ctype :=
  match r with
  | Native => tword
  | Fallback => tval
  end.

(** All bytes of an access of type [t] at [a] are mapped. *)
Definition mapped_word (tgt : arch) (m : gmap Z byte) (t : ctype) (a : Z)
  : Prop :=
  mappedb m a (sizeof tgt t) = true.


(** The seven fence macros of the fallback path. *)
Inductive fence :=
| Barrier | Mb | Rmb | Wmb | SmpRmb | SmpWmb | SmpMb.

Definition run_fence (tgt : arch) (f : fence) : M unit :=
  match f with
  | Barrier => C.io_uring_barrier
  | Mb => C.io_uring_mb
  | Rmb => C.io_uring_rmb
  | Wmb => C.io_uring_wmb
  | SmpRmb => C.io_uring_smp_rmb
  | SmpWmb => C.io_uring_smp_wmb
  | SmpMb => C.io_uring_smp_mb tgt
  end.

(** What a fence needs of the state: only the locked add reads memory. *)
Definition fence_ready (tgt : arch) (f : fence) (s : machine) : Prop :=
  match f with
  | SmpMb => mappedb (mem s) (stack_slot tgt s) 4 = true
  | _ => True
  end.

(** Two words that share no byte. *)
Definition disjoint_words (tgt : arch) (ta : ctype) (a : Z) (tb : ctype) (b : Z)
  : Prop :=
  a + Z.of_nat (sizeof tgt ta) <= b \/ b + Z.of_nat (sizeof tgt tb) <= a.

(** An [asm] statement that clobbers memory: the compiler may not move or
    cache memory accesses across it. *)
Definition compiler_barrier (e : event) : Prop :=
  match e with
  | EvAsm _ clobbers => In Cmemory clobbers
  | _ => False
  end.

(** * Properties *)

(** ** Memory *)

Section Memory.
Implicit Types (m : gmap Z byte) (a : Z) (bs : list byte) (n : nat).

Lemma load_bytes_length m a n bs :
  load_bytes m a n = Some bs -> length bs = n.
Proof.
  revert a bs. induction n as [|n IH]; intros a bs; simpl.
  - intros [= <-]. reflexivity.
  - destruct (m !! a); [|discriminate].
    destruct (load_bytes m (a + 1) n) eqn:E; [|discriminate].
    intros [= <-]. simpl. f_equal. eauto.
Qed.

Lemma mappedb_load m a n :
  mappedb m a n = true <-> is_Some (load_bytes m a n).
Proof.
  revert a. induction n as [|n IH]; intros a; simpl.
  - split; eauto.
  - rewrite andb_true_iff, bool_decide_eq_true, IH. split.
    + intros [[b ->] [bs ->]]. eauto.
    + destruct (m !! a); [|intros [? [=]]].
      destruct (load_bytes m (a + 1) n); [eauto|intros [? [=]]].
Qed.

Lemma mappedb_insert m a0 b a n :
  is_Some (m !! a0) ->
  mappedb (<[a0 := b]> m) a n = mappedb m a n.
Proof.
  intros Hm. revert a. induction n as [|n IH]; intros a; simpl; [done|].
  rewrite IH. f_equal. apply bool_decide_ext.
  destruct (decide (a0 = a)) as [->|Hne].
  - rewrite lookup_insert_eq. split; eauto.
  - by rewrite lookup_insert_ne.
Qed.

Lemma mappedb_store m a bs :
  mappedb m a (length bs) = true <-> is_Some (store_bytes m a bs).
Proof.
  revert m a. induction bs as [|b bs IH]; intros m a; simpl.
  - split; eauto.
  - destruct (m !! a) as [b0|] eqn:Hb.
    + rewrite bool_decide_eq_true_2 by eauto. simpl.
      rewrite <- IH, mappedb_insert by eauto. done.
    + rewrite bool_decide_eq_false_2 by (intros [? [=]]). simpl.
      split; [discriminate|intros [? [=]]].
Qed.

Lemma store_bytes_other m a bs m' a' :
  store_bytes m a bs = Some m' ->
  a' < a \/ a + Z.of_nat (length bs) <= a' ->
  m' !! a' = m !! a'.
Proof.
  revert m a. induction bs as [|b bs IH]; intros m a; simpl.
  - by intros [= <-].
  - destruct (m !! a); [|discriminate]. intros Hs Hout.
    rewrite (IH _ _ Hs) by lia. apply lookup_insert_ne. lia.
Qed.

Lemma load_store_bytes m a bs m' :
  store_bytes m a bs = Some m' ->
  load_bytes m' a (length bs) = Some bs.
Proof.
  revert m a. induction bs as [|b bs IH]; intros m a; simpl; [done|].
  destruct (m !! a); [|discriminate]. intros Hs.
  rewrite (store_bytes_other _ _ _ _ a Hs) by lia.
  rewrite lookup_insert_eq. by rewrite (IH _ _ Hs).
Qed.

(** Writing back the bytes just read leaves the memory as it was. *)
Lemma store_load_bytes m a n bs :
  load_bytes m a n = Some bs ->
  store_bytes m a bs = Some m.
Proof.
  revert a bs. induction n as [|n IH]; intros a bs; simpl.
  - by intros [= <-].
  - destruct (m !! a) as [b|] eqn:Hb; [|discriminate].
    destruct (load_bytes m (a + 1) n) as [l|] eqn:E; [|discriminate].
    intros [= <-]. simpl. rewrite Hb, insert_id by done. eauto.
Qed.

Lemma load_bytes_ext m m' a n :
  (forall a', a <= a' < a + Z.of_nat n -> m' !! a' = m !! a') ->
  load_bytes m' a n = load_bytes m a n.
Proof.
  revert a. induction n as [|n IH]; intros a H; simpl; [done|].
  rewrite H by lia. rewrite IH; [done|]. intros. apply H. lia.
Qed.

Lemma mappedb_store_bytes m a bs m' a' n :
  store_bytes m a bs = Some m' ->
  mappedb m' a' n = mappedb m a' n.
Proof.
  revert m a. induction bs as [|b bs IH]; intros m a; simpl.
  - by intros [= <-].
  - destruct (m !! a) eqn:Hb; [|discriminate]. intros Hs.
    rewrite (IH _ _ Hs). apply mappedb_insert. eauto.
Qed.
End Memory.

(** ** Typed accesses *)

Section TypedAccess.
Variable tgt : arch.
Implicit Types (m : gmap Z byte) (t : ctype) (a v : Z).

Lemma bits_pos t : 0 < bits tgt t.
Proof. unfold bits. destruct tgt, t; simpl; lia. Qed.

Lemma wrap_in_range t v : in_range tgt t v -> wrap tgt t v = v.
Proof. intros H. apply Z.mod_small, H. Qed.

Lemma mapped_load m t a :
  mapped_word tgt m t a <-> is_Some (load tgt m t a).
Proof. unfold mapped_word, load. by rewrite mappedb_load, fmap_is_Some. Qed.

Lemma mapped_store m t a v :
  mapped_word tgt m t a <-> is_Some (store tgt m t a v).
Proof.
  unfold mapped_word, store. by rewrite <- mappedb_store, length_le_split.
Qed.

Lemma valid_access_mapped m t a :
  valid_access tgt m t a -> mapped_word tgt m t a.
Proof.
  unfold valid_access, valid_accessb, mapped_word.
  rewrite andb_true_iff. tauto.
Qed.

Lemma valid_access_load m t a :
  valid_access tgt m t a -> is_Some (load tgt m t a).
Proof. intros H. by apply mapped_load, valid_access_mapped. Qed.

Lemma valid_access_store m t a v :
  valid_access tgt m t a -> is_Some (store tgt m t a v).
Proof. intros H. by apply mapped_store, valid_access_mapped. Qed.

Lemma load_in_range m t a v : load tgt m t a = Some v -> in_range tgt t v.
Proof.
  unfold load.
  destruct (load_bytes m a (sizeof tgt t)) as [bs|] eqn:E; [|discriminate].
  intros [= <-]. apply load_bytes_length in E.
  pose proof (le_combine_bound bs) as B. rewrite E in B.
  unfold in_range, bits. by rewrite Z.mul_comm.
Qed.

Lemma load_store_same m t a v m' :
  store tgt m t a v = Some m' ->
  load tgt m' t a = Some (wrap tgt t v).
Proof.
  unfold store, load.
  intros Hs. apply load_store_bytes in Hs.
  rewrite length_le_split in Hs. rewrite Hs. simpl.
  by rewrite le_combine_split.
Qed.

Lemma store_other m t a v m' a' :
  store tgt m t a v = Some m' ->
  a' < a \/ a + Z.of_nat (sizeof tgt t) <= a' ->
  m' !! a' = m !! a'.
Proof.
  unfold store.
  intros Hs Hout. eapply store_bytes_other; [exact Hs|].
  by rewrite length_le_split.
Qed.

Lemma store_bytes_of m t a v m' :
  store tgt m t a v = Some m' ->
  load_bytes m' a (sizeof tgt t) = Some (le_split (sizeof tgt t) v).
Proof.
  unfold store.
  intros Hs. apply load_store_bytes in Hs. by rewrite length_le_split in Hs.
Qed.

Lemma mapped_after_store m t a v m' t' a' :
  store tgt m t a v = Some m' ->
  mapped_word tgt m' t' a' <-> mapped_word tgt m t' a'.
Proof.
  unfold store, mapped_word. intros Hs.
  by rewrite (mappedb_store_bytes _ _ _ _ _ _ Hs).
Qed.

End TypedAccess.

(** ** Running the primitives *)

Section Runs.
Variable tgt : arch.
Implicit Types (s : machine) (t : ctype) (a v : Z).

Lemma emitted_app {A} s (x : A) m f l :
  emitted s (Some (x, {| mem := m; sp := sp s; flags := f;
                         trace := trace s ++ l |})) = Some l.
Proof. unfold emitted. simpl. by rewrite drop_app_length. Qed.

Lemma barrier_run s :
  C.io_uring_barrier s = Some (tt, log (EvAsm [] [Cmemory]) s).
Proof. reflexivity. Qed.

Lemma volatile_store_run t a v s m' :
  store tgt (mem s) t a v = Some m' ->
  volatile_store tgt t a v s =
    Some (tt, log (EvVolatileStore t a (wrap tgt t v)) (with_mem m' s)).
Proof. intros H. unfold volatile_store. by rewrite H. Qed.

Lemma volatile_load_run t a s v :
  load tgt (mem s) t a = Some v ->
  volatile_load tgt t a s = Some (v, log (EvVolatileLoad t a v) s).
Proof. intros H. unfold volatile_load. by rewrite H. Qed.

Lemma atomic_store_run t a v o s m' :
  store tgt (mem s) t a v = Some m' ->
  atomic_store_explicit tgt t a v o s =
    Some (tt, log (EvAtomicStore o t a (wrap tgt t v)) (with_mem m' s)).
Proof. intros H. unfold atomic_store_explicit. by rewrite H. Qed.

Lemma atomic_load_run t a o s v :
  load tgt (mem s) t a = Some v ->
  atomic_load_explicit tgt t a o s = Some (v, log (EvAtomicLoad o t a v) s).
Proof. intros H. unfold atomic_load_explicit. by rewrite H. Qed.
End Runs.

(** ** The fallback release store and acquire load, step by step *)

(** C2.  On the fallback path [io_uring_smp_store_release(p, v)] on a valid
    word runs [io_uring_barrier()] and then [IO_URING_WRITE_ONCE( *p, v)],
    in this order and nothing else: the trace it adds is the empty [asm]
    with its memory clobber followed by one volatile store, that store is
    its only memory access, and no machine instruction comes from inline
    assembly (no CPU fence). *)
Theorem fallback_store_release_steps tgt tp tv p v s :
  valid_access tgt (mem s) tv p ->
  exists s1 s2,
    C.io_uring_barrier s = Some (tt, s1) /\
    C.IO_URING_WRITE_ONCE tgt tp tv p v s1 = Some (tt, s2) /\
    C.io_uring_smp_store_release tgt tp tv p v s = Some (tt, s2) /\
    store tgt (mem s) tv p v = Some (mem s2) /\
    exists tr,
      emitted s (C.io_uring_smp_store_release tgt tp tv p v s) = Some tr /\
      tr = [EvAsm [] [Cmemory]; EvVolatileStore tv p (wrap tgt tv v)] /\
      filter (fun e => accesses_memory e = true) tr
        = [EvVolatileStore tv p (wrap tgt tv v)] /\
      emitted_insns tr = [].
Proof.
  intros Hv. apply (valid_access_store tgt _ _ _ v) in Hv as [m' Hm'].
  exists (log (EvAsm [] [Cmemory]) s).
  exists {| mem := m'; sp := sp s; flags := flags s;
            trace := trace s ++ [EvAsm [] [Cmemory];
                                 EvVolatileStore tv p (wrap tgt tv v)] |}.
  assert (Hrun : C.IO_URING_WRITE_ONCE tgt tp tv p v (log (EvAsm [] [Cmemory]) s)
                 = Some (tt, {| mem := m'; sp := sp s; flags := flags s;
                                trace := trace s ++ [EvAsm [] [Cmemory];
                                   EvVolatileStore tv p (wrap tgt tv v)] |})).
  { unfold C.IO_URING_WRITE_ONCE.
    rewrite (volatile_store_run tgt tv p v _ m') by exact Hm'.
    unfold log, with_mem. simpl. by rewrite <- app_assoc. }
  assert (Hrel : C.io_uring_smp_store_release tgt tp tv p v s
                 = Some (tt, {| mem := m'; sp := sp s; flags := flags s;
                                trace := trace s ++ [EvAsm [] [Cmemory];
                                   EvVolatileStore tv p (wrap tgt tv v)] |})).
  { unfold C.io_uring_smp_store_release, bind. by rewrite barrier_run, Hrun. }
  split; [apply barrier_run|]. split; [exact Hrun|]. split; [exact Hrel|].
  split; [exact Hm'|].
  eexists. split; [rewrite Hrel; apply emitted_app|]. done.
Qed.

Lemma fallback_store_release_steps_witness :
  valid_access X86_64 (mem sample_machine) U32 64 /\
  exists s2,
    C.io_uring_smp_store_release X86_64 U32 U32 64 7 sample_machine
      = Some (tt, s2) /\
    trace s2 = [EvAsm [] [Cmemory]; EvVolatileStore U32 64 7].
Proof.
  split; [vm_compute; reflexivity|].
  destruct (fallback_store_release_steps X86_64 U32 U32 64 7 sample_machine)
    as (s1 & s2 & _ & _ & Hrel & _ & tr & Htr & -> & _).
  { vm_compute. reflexivity. }
  exists s2. split; [exact Hrel|].
  rewrite Hrel in Htr. unfold emitted in Htr. simpl in Htr.
  rewrite drop_0 in Htr. injection Htr as ->. reflexivity.
Defined.




(** ** The four operations, on either realization *)

Section Interface.
Variable tgt : arch.
Variable r : realization.
Implicit Types (s : machine) (t : ctype) (a v : Z).

Lemma relaxed_write_run t a v s m' :
  store tgt (mem s) t a v = Some m' ->
  exists s1, relaxed_write (realize tgt r) t a v s = Some (tt, s1) /\
             mem s1 = m' /\ sp s1 = sp s /\ flags s1 = flags s.
Proof.
  intros H. destruct r; simpl.
  - unfold Cxx.IO_URING_WRITE_ONCE.
    rewrite (atomic_store_run tgt _ _ _ _ _ m') by done. eauto.
  - unfold C.IO_URING_WRITE_ONCE.
    rewrite (volatile_store_run tgt _ _ _ _ m') by done. eauto.
Qed.

Lemma release_store_run t a v s m' :
  store tgt (mem s) t a v = Some m' ->
  exists s1, release_store (realize tgt r) t a v s = Some (tt, s1) /\
             mem s1 = m' /\ sp s1 = sp s /\ flags s1 = flags s.
Proof.
  intros H. destruct r; simpl.
  - unfold Cxx.io_uring_smp_store_release.
    rewrite (atomic_store_run tgt _ _ _ _ _ m') by done. eauto.
  - unfold C.io_uring_smp_store_release, bind. rewrite barrier_run.
    unfold C.IO_URING_WRITE_ONCE.
    rewrite (volatile_store_run tgt _ _ _ _ m') by done. eauto.
Qed.

Lemma relaxed_read_run t a s x :
  load tgt (mem s) t a = Some x ->
  exists s1, relaxed_read (realize tgt r) t a s = Some (x, s1) /\
             mem s1 = mem s /\ sp s1 = sp s /\ flags s1 = flags s.
Proof.
  intros H. destruct r; simpl.
  - unfold Cxx.IO_URING_READ_ONCE.
    rewrite (atomic_load_run tgt _ _ _ _ x) by done. eauto.
  - unfold C.IO_URING_READ_ONCE.
    rewrite (volatile_load_run tgt _ _ _ x) by done. eauto.
Qed.

Lemma acquire_load_run t a s x :
  load tgt (mem s) t a = Some x ->
  exists s1, acquire_load (realize tgt r) t a s = Some (x, s1) /\
             mem s1 = mem s /\ sp s1 = sp s /\ flags s1 = flags s.
Proof.
  intros H. destruct r; simpl.
  - unfold Cxx.io_uring_smp_load_acquire.
    rewrite (atomic_load_run tgt _ _ _ _ x) by done. eauto.
  - unfold C.io_uring_smp_load_acquire, bind, C.IO_URING_READ_ONCE.
    rewrite (volatile_load_run tgt _ _ _ x) by done.
    rewrite barrier_run. unfold ret. eauto.
Qed.
End Interface.

(** ** Results and final memory of the primitive accesses *)

Section Outcomes.
Variable tgt : arch.
Implicit Types (s : machine) (t : ctype) (a v : Z).

Lemma outcome_atomic_store t a v o s :
  outcome (atomic_store_explicit tgt t a v o s)
  = (fun m' => (tt, m')) <$> store tgt (mem s) t a v.
Proof. unfold atomic_store_explicit. by destruct (store _ _ _ _ _). Qed.

Lemma outcome_atomic_load t a o s :
  outcome (atomic_load_explicit tgt t a o s)
  = (fun x => (x, mem s)) <$> load tgt (mem s) t a.
Proof. unfold atomic_load_explicit. by destruct (load _ _ _ _). Qed.

Lemma outcome_volatile_store t a v s :
  outcome (volatile_store tgt t a v s)
  = (fun m' => (tt, m')) <$> store tgt (mem s) t a v.
Proof. unfold volatile_store. by destruct (store _ _ _ _ _). Qed.

Lemma outcome_volatile_load t a s :
  outcome (volatile_load tgt t a s)
  = (fun x => (x, mem s)) <$> load tgt (mem s) t a.
Proof. unfold volatile_load. by destruct (load _ _ _ _). Qed.

Lemma outcome_fallback_release tp tv a v s :
  outcome (C.io_uring_smp_store_release tgt tp tv a v s)
  = (fun m' => (tt, m')) <$> store tgt (mem s) tv a v.
Proof.
  unfold C.io_uring_smp_store_release, bind. rewrite barrier_run.
  unfold C.IO_URING_WRITE_ONCE. by rewrite outcome_volatile_store.
Qed.

Lemma outcome_fallback_acquire t a s :
  outcome (C.io_uring_smp_load_acquire tgt t a s)
  = (fun x => (x, mem s)) <$> load tgt (mem s) t a.
Proof.
  unfold C.io_uring_smp_load_acquire, bind, C.IO_URING_READ_ONCE,
    volatile_load.
  by destruct (load _ _ _ _).
Qed.
End Outcomes.

(** ** Fences *)

Section Fences.
Implicit Types (s : machine).

Lemma with_mem_same s : with_mem (mem s) s = s.
Proof. by destruct s. Qed.

(** A locked add of 0 to a mapped slot writes back what it read. *)
Lemma lock_addl_0_run disp s :
  mappedb (mem s) (sp s + disp) 4 = true ->
  exists f, exec_insn (LOCK_ADDL 0 disp) s = Some (tt, with_flags f s).
Proof.
  intros Hm. apply mappedb_load in Hm as [bs Hbs].
  unfold exec_insn. rewrite Hbs. rewrite Z.add_0_r.
  pose proof (load_bytes_length _ _ _ _ Hbs) as Hlen.
  pose proof (split_le_combine bs) as Hsplit.
  rewrite Hlen in Hsplit. rewrite Hsplit.
  rewrite (store_load_bytes _ _ _ _ Hbs), with_mem_same. eauto.
Qed.

Lemma smp_mb_run tgt s :
  mappedb (mem s) (stack_slot tgt s) 4 = true ->
  exists f,
    C.io_uring_smp_mb tgt s =
      Some (tt, log (EvAsm [LOCK_ADDL 0 (stack_slot tgt s - sp s)]
                       [Cmemory; Ccc]) (with_flags f s)).
Proof.
  unfold stack_slot. intros Hm.
  destruct (lock_addl_0_run _ s Hm) as [f Hf]. exists f.
  replace (sp s + _ - sp s) with (match tgt with I386 => 0 | X86_64 => -132 end)
    by lia.
  destruct tgt; unfold C.io_uring_smp_mb, asm_volatile, bind; simpl;
    unfold bind; rewrite Hf; reflexivity.
Qed.

Lemma mb_run s :
  C.io_uring_mb s = Some (tt, log (EvAsm [MFENCE] [Cmemory]) s).
Proof. reflexivity. Qed.
End Fences.

(** C9.  The full fences leave memory as it is.  [io_uring_smp_mb] is one
    [asm] statement holding a locked add of 0 to a stack slot ([0(%esp)] on
    i386, [-132(%rsp)] otherwise); when that slot is mapped it runs, and the
    memory and the stack pointer after it are those before it.
    [io_uring_mb] is an [mfence] and changes no memory either.  So a read
    of any word placed after either fence returns what it returns without
    the fence. *)
Theorem full_fence_leaves_memory tgt s :
  mappedb (mem s) (stack_slot tgt s) 4 = true ->
  (exists s',
     C.io_uring_smp_mb tgt s = Some (tt, s') /\
     mem s' = mem s /\ sp s' = sp s /\
     emitted s (C.io_uring_smp_mb tgt s)
       = Some [EvAsm [LOCK_ADDL 0 match tgt with I386 => 0 | X86_64 => -132 end]
                 [Cmemory; Ccc]]) /\
  (exists s',
     C.io_uring_mb s = Some (tt, s') /\
     mem s' = mem s /\ sp s' = sp s /\
     emitted s (C.io_uring_mb s) = Some [EvAsm [MFENCE] [Cmemory]]) /\
  forall t a,
    fst <$> (C.io_uring_smp_mb tgt ;; C.IO_URING_READ_ONCE tgt t a) s
      = fst <$> C.IO_URING_READ_ONCE tgt t a s /\
    fst <$> (C.io_uring_mb ;; C.IO_URING_READ_ONCE tgt t a) s
      = fst <$> C.IO_URING_READ_ONCE tgt t a s /\
    fst <$> (C.io_uring_smp_mb tgt ;; C.io_uring_smp_load_acquire tgt t a) s
      = fst <$> C.io_uring_smp_load_acquire tgt t a s.
Proof.
  intros Hm. destruct (smp_mb_run tgt s Hm) as [f Hf].
  assert (Hd : stack_slot tgt s - sp s
               = match tgt with I386 => 0 | X86_64 => -132 end)
    by (unfold stack_slot; lia).
  rewrite Hd in Hf. split; [|split].
  - eexists. split; [exact Hf|]. split; [done|]. split; [done|].
    rewrite Hf. unfold emitted. simpl. by rewrite drop_app_length.
  - eexists. split; [apply mb_run|]. split; [done|]. split; [done|].
    rewrite mb_run. unfold emitted. simpl. by rewrite drop_app_length.
  - intros t a. unfold bind at 1 2 3. rewrite Hf, mb_run.
    unfold C.io_uring_smp_load_acquire, bind, C.IO_URING_READ_ONCE,
      volatile_load. simpl.
    destruct (load tgt (mem s) t a); done.
Qed.

Lemma full_fence_leaves_memory_witness :
  mappedb (mem sample_machine) (stack_slot X86_64 sample_machine) 4 = true /\
  exists s',
    C.io_uring_smp_mb X86_64 sample_machine = Some (tt, s') /\
    mem s' = mem sample_machine.
Proof.
  assert (H : mappedb (mem sample_machine) (stack_slot X86_64 sample_machine) 4
              = true) by (vm_compute; reflexivity).
  split; [exact H|].
  destruct (full_fence_leaves_memory X86_64 sample_machine H)
    as ((s' & Hrun & Hmem & _) & _).
  exists s'. split; assumption.
Defined.

(** C10.  On the fallback path [io_uring_smp_rmb] and [io_uring_smp_wmb]
    are [io_uring_barrier]: the three are the same operation.  Running it
    always succeeds and only appends the empty [asm] statement with its
    memory clobber to the trace; that step emits no machine instruction,
    so no CPU fence, and accesses no memory. *)
Theorem smp_rmb_wmb_are_barrier :
  C.io_uring_smp_rmb = C.io_uring_barrier /\
  C.io_uring_smp_wmb = C.io_uring_barrier /\
  C.io_uring_smp_rmb = C.io_uring_smp_wmb /\
  forall s,
    C.io_uring_barrier s
      = Some (tt, {| mem := mem s; sp := sp s; flags := flags s;
                     trace := trace s ++ [EvAsm [] [Cmemory]] |}) /\
    emitted s (C.io_uring_smp_rmb s) = Some [EvAsm [] [Cmemory]] /\
    emitted s (C.io_uring_smp_wmb s) = Some [EvAsm [] [Cmemory]] /\
    emitted_insns [EvAsm [] [Cmemory]] = [] /\
    accesses_memory (EvAsm [] [Cmemory]) = false.
Proof.
  repeat split; try reflexivity;
    unfold C.io_uring_smp_rmb, C.io_uring_smp_wmb; rewrite barrier_run;
    unfold emitted; simpl; by rewrite drop_app_length.
Qed.

(** By contrast the plain [io_uring_rmb] and [io_uring_wmb] do emit a fence
    instruction. *)
Lemma rmb_wmb_emit_fences s :
  (emitted_insns <$> emitted s (C.io_uring_rmb s)) = Some [LFENCE] /\
  (emitted_insns <$> emitted s (C.io_uring_wmb s)) = Some [SFENCE].
Proof.
  split; unfold emitted; simpl; by rewrite drop_app_length.
Qed.

(** ** Totality *)



(** * Further properties of the header *)

(** ** Stores and loads of either realization, relaxed or ordered *)

Section Operations.
Variable tgt : arch.
Variable r : realization.
Implicit Types (s : machine) (t : ctype) (a v : Z) (o : bool).

Lemma store_op_run o t a v s m' :
  store tgt (mem s) t a v = Some m' ->
  exists s1, store_op (realize tgt r) o t a v s = Some (tt, s1) /\
             mem s1 = m' /\ sp s1 = sp s /\ flags s1 = flags s.
Proof.
  destruct o; [apply release_store_run | apply relaxed_write_run].
Qed.

Lemma load_op_run o t a s x :
  load tgt (mem s) t a = Some x ->
  exists s1, load_op (realize tgt r) o t a s = Some (x, s1) /\
             mem s1 = mem s /\ sp s1 = sp s /\ flags s1 = flags s.
Proof.
  destruct o; [apply acquire_load_run | apply relaxed_read_run].
Qed.

Lemma store_op_outcome o t a v s :
  outcome (store_op (realize tgt r) o t a v s)
  = (fun m' => (tt, m')) <$> store tgt (mem s) t a v.
Proof.
  destruct o, r; simpl.
  - apply outcome_atomic_store.
  - apply outcome_fallback_release.
  - apply outcome_atomic_store.
  - apply outcome_volatile_store.
Qed.

Lemma load_op_outcome o t a s :
  outcome (load_op (realize tgt r) o t a s)
  = (fun x => (x, mem s)) <$> load tgt (mem s) t a.
Proof.
  destruct o, r; simpl.
  - apply outcome_atomic_load.
  - apply outcome_fallback_acquire.
  - apply outcome_atomic_load.
  - apply outcome_volatile_load.
Qed.

Lemma outcome_is_Some {A} (x : option (A * machine)) :
  is_Some (outcome x) <-> is_Some x.
Proof.
  destruct x as [[? ?]|]; simpl; split; eauto; intros [? [=]].
Qed.
End Operations.

(** X2.  On each realization the ordered form of an operation computes what
    the relaxed form computes: [release_store] leaves the same memory as
    [relaxed_write], and [acquire_load] returns the same value as
    [relaxed_read], from every state.  They differ only in the ordering
    recorded in the trace. *)
Theorem ordered_computes_as_relaxed r tgt t a v s :
  outcome (release_store (realize tgt r) t a v s)
    = outcome (relaxed_write (realize tgt r) t a v s) /\
  outcome (acquire_load (realize tgt r) t a s)
    = outcome (relaxed_read (realize tgt r) t a s).
Proof.
  split.
  - exact (eq_trans (store_op_outcome tgt r true t a v s)
                    (eq_sym (store_op_outcome tgt r false t a v s))).
  - exact (eq_trans (load_op_outcome tgt r true t a s)
                    (eq_sym (load_op_outcome tgt r false t a s))).
Qed.

(** X3.  A load itself changes nothing: on a valid word it returns a value
    of the word's type and leaves memory, stack pointer and flags as they
    were.  So within one context, when no other context stores to the word
    in between, a second load of it, relaxed or ordered, returns the same
    value. *)
Theorem load_is_repeatable r tgt o1 o2 t a s :
  valid_access tgt (mem s) t a ->
  exists x s1 s2,
    load_op (realize tgt r) o1 t a s = Some (x, s1) /\
    load_op (realize tgt r) o2 t a s1 = Some (x, s2) /\
    in_range tgt t x /\
    mem s2 = mem s /\ sp s2 = sp s /\ flags s2 = flags s.
Proof.
  intros Hv. apply valid_access_load in Hv as [x Hx].
  destruct (load_op_run tgt r o1 t a s x Hx) as (s1 & H1 & Hm1 & Hs1 & Hf1).
  rewrite <- Hm1 in Hx.
  destruct (load_op_run tgt r o2 t a s1 x Hx) as (s2 & H2 & Hm2 & Hs2 & Hf2).
  exists x, s1, s2. rewrite Hm1 in Hx.
  repeat split; try congruence; eapply load_in_range; eauto.
Qed.

Lemma load_is_repeatable_witness :
  valid_access X86_64 (mem sample_machine) U32 8 /\
  exists x s1 s2,
    C.IO_URING_READ_ONCE X86_64 U32 8 sample_machine = Some (x, s1) /\
    C.io_uring_smp_load_acquire X86_64 U32 8 s1 = Some (x, s2).
Proof.
  assert (H : valid_access X86_64 (mem sample_machine) U32 8)
    by (vm_compute; reflexivity).
  split; [exact H|].
  destruct (load_is_repeatable Fallback X86_64 false true U32 8 sample_machine H)
    as (x & s1 & s2 & H1 & H2 & _).
  exists x, s1, s2. split; assumption.
Defined.

(** X5.  Storing back the value just loaded changes nothing: on a valid
    word, a load followed by a store of the loaded value to the same word
    leaves the whole memory as it was. *)
Theorem store_of_loaded_value r tgt o1 o2 t a s :
  valid_access tgt (mem s) t a ->
  exists s',
    (do x <- load_op (realize tgt r) o1 t a;
     store_op (realize tgt r) o2 t a x) s = Some (tt, s') /\
    mem s' = mem s.
Proof.
  intros Hv. pose proof Hv as Hv'.
  apply valid_access_load in Hv as [x Hx].
  destruct (load_op_run tgt r o1 t a s x Hx) as (s1 & H1 & Hm1 & _).
  assert (Hst : store tgt (mem s1) t a x = Some (mem s)).
  { rewrite Hm1. unfold load in Hx. unfold store.
    destruct (load_bytes (mem s) a (sizeof tgt t)) as [bs|] eqn:E;
      [|discriminate].
    simpl in Hx. injection Hx as <-. pose proof (load_bytes_length _ _ _ _ E) as Hlen.
    pose proof (split_le_combine bs) as Hsplit. rewrite Hlen in Hsplit.
    rewrite Hsplit. eapply store_load_bytes, E. }
  destruct (store_op_run tgt r o2 t a x s1 _ Hst) as (s2 & H2 & Hm2 & _).
  exists s2. unfold bind. rewrite H1. auto.
Qed.

Lemma store_of_loaded_value_witness :
  valid_access I386 (mem sample_machine) U64 16 /\
  exists s',
    (do x <- C.io_uring_smp_load_acquire I386 U64 16;
     C.io_uring_smp_store_release I386 U64 U64 16 x) sample_machine
      = Some (tt, s') /\
    mem s' = mem sample_machine.
Proof.
  assert (H : valid_access I386 (mem sample_machine) U64 16)
    by (vm_compute; reflexivity).
  split; [exact H|].
  exact (store_of_loaded_value Fallback I386 true true U64 16 sample_machine H).
Defined.

(** ** Words that do not overlap *)

Section Disjoint.
Variable tgt : arch.
Implicit Types (m : gmap Z byte) (t : ctype) (a v : Z).

Lemma store_bytes_lookup m a bs m' k :
  store_bytes m a bs = Some m' ->
  m' !! k = if decide (a <= k < a + Z.of_nat (length bs))
            then bs !! Z.to_nat (k - a)
            else m !! k.
Proof.
  revert m a. induction bs as [|b bs IH]; intros m a; simpl length.
  - intros [= <-]. case_decide; [lia|done].
  - simpl. destruct (m !! a) eqn:Hb; [|discriminate]. intros Hs.
    destruct (decide (k = a)) as [->|Hne].
    + rewrite (store_bytes_other _ _ _ _ a Hs) by lia.
      rewrite lookup_insert_eq, Z.sub_diag. case_decide; [done|lia].
    + rewrite (IH _ _ Hs). repeat case_decide; try lia.
      * replace (Z.to_nat (k - a)) with (S (Z.to_nat (k - (a + 1)))) by lia.
        done.
      * by rewrite lookup_insert_ne.
Qed.

Lemma load_disjoint m ta a tb b v m' :
  store tgt m tb b v = Some m' ->
  disjoint_words tgt ta a tb b ->
  load tgt m' ta a = load tgt m ta a.
Proof.
  intros Hs Hd. unfold load.
  f_equal. apply load_bytes_ext. intros a' Ha'.
  eapply store_other; [exact Hs|]. unfold disjoint_words in Hd. lia.
Qed.

Lemma store_commute m ta a va tb b vb m1 m12 m2 m21 :
  disjoint_words tgt ta a tb b ->
  store tgt m ta a va = Some m1 -> store tgt m1 tb b vb = Some m12 ->
  store tgt m tb b vb = Some m2 -> store tgt m2 ta a va = Some m21 ->
  m12 = m21.
Proof.
  unfold store, disjoint_words.
  intros Hd H1 H12 H2 H21. apply map_eq. intros k.
  rewrite (store_bytes_lookup _ _ _ _ k H12), (store_bytes_lookup _ _ _ _ k H1),
    (store_bytes_lookup _ _ _ _ k H21), (store_bytes_lookup _ _ _ _ k H2).
  rewrite !length_le_split. repeat case_decide; try done; lia.
Qed.
End Disjoint.

(** ** The fence macros *)

Section FenceRuns.
Variable tgt : arch.
Implicit Types (s : machine) (f : fence).

Lemma emitted_log {A} s (x : A) e fl :
  emitted s (Some (x, log e (with_flags fl s))) = Some [e].
Proof. unfold emitted. simpl. by rewrite drop_app_length. Qed.

Lemma with_flags_same s : with_flags (flags s) s = s.
Proof. by destruct s. Qed.

(** Every fence is one [asm] statement run on an otherwise unchanged
    state; only the locked add may rewrite the flags. *)
Lemma run_fence_run f s :
  fence_ready tgt f s ->
  exists fl clobbers,
    run_fence tgt f s =
      Some (tt, log (EvAsm
                       match f with
                       | Barrier | SmpRmb | SmpWmb => []
                       | Mb => [MFENCE]
                       | Rmb => [LFENCE]
                       | Wmb => [SFENCE]
                       | SmpMb =>
                           [LOCK_ADDL 0 match tgt with
                                        | I386 => 0
                                        | X86_64 => -132
                                        end]
                       end clobbers) (with_flags fl s)) /\
    In Cmemory clobbers /\
    (f <> SmpMb -> fl = flags s).
Proof.
  intros Hr.
  destruct f; simpl in Hr;
    try (exists (flags s), [Cmemory]; rewrite with_flags_same;
         split; [reflexivity|]; split; [by left|done]).
  destruct (smp_mb_run tgt s Hr) as [fl Hfl].
  exists fl, [Cmemory; Ccc]. simpl. rewrite Hfl.
  replace (stack_slot tgt s - sp s)
    with (match tgt with I386 => 0 | X86_64 => -132 end)
    by (unfold stack_slot; lia).
  split; [reflexivity|]. split; [by left|done].
Qed.

Lemma lock_addl_unmapped imm disp s :
  load_bytes (mem s) (sp s + disp) 4 = None ->
  exec_insn (LOCK_ADDL imm disp) s = None.
Proof. unfold exec_insn. by intros ->. Qed.

Lemma outcome_None {A} (x : option (A * machine)) :
  outcome x = None -> x = None.
Proof. by destruct x as [[? ?]|]. Qed.
End FenceRuns.

(** X9.  What each of the seven fence macros does.  Each is a single [asm]
    statement with a memory clobber, so each is at least a compiler
    barrier; each leaves memory and the stack pointer as they were, and all
    but [io_uring_smp_mb] leave the flags.  The instruction it holds is
    none for [io_uring_barrier], [io_uring_smp_rmb] and [io_uring_smp_wmb],
    [mfence], [lfence], [sfence] for [io_uring_mb], [io_uring_rmb],
    [io_uring_wmb], and the locked add of 0 for [io_uring_smp_mb], which is
    the only one that needs anything of the state (its stack slot
    mapped). *)
Theorem fence_effects tgt f s :
  fence_ready tgt f s ->
  exists s' e,
    run_fence tgt f s = Some (tt, s') /\
    mem s' = mem s /\ sp s' = sp s /\
    (f <> SmpMb -> flags s' = flags s) /\
    emitted s (run_fence tgt f s) = Some [e] /\
    compiler_barrier e /\
    insns_of e =
      match f with
      | Barrier | SmpRmb | SmpWmb => []
      | Mb => [MFENCE]
      | Rmb => [LFENCE]
      | Wmb => [SFENCE]
      | SmpMb => [LOCK_ADDL 0 match tgt with I386 => 0 | X86_64 => -132 end]
      end.
Proof.
  intros Hr. destruct (run_fence_run tgt f s Hr) as (fl & cl & Hrun & Hcl & Hfl).
  eexists _, _. split; [exact Hrun|]. split; [done|]. split; [done|].
  split; [exact Hfl|]. split; [rewrite Hrun; apply emitted_log|].
  split; [exact Hcl|reflexivity].
Qed.

Lemma fence_effects_witness :
  fence_ready I386 SmpMb sample_machine /\
  exists s',
    C.io_uring_smp_mb I386 sample_machine = Some (tt, s') /\
    mem s' = mem sample_machine /\
    emitted sample_machine (C.io_uring_smp_mb I386 sample_machine)
      = Some [EvAsm [LOCK_ADDL 0 0] [Cmemory; Ccc]].
Proof.
  assert (H : fence_ready I386 SmpMb sample_machine)
    by (vm_compute; reflexivity).
  split; [exact H|].
  destruct (fence_effects I386 SmpMb sample_machine H)
    as (s' & e & Hrun & Hmem & _ & _ & Hem & _).
  exists s'. split; [exact Hrun|]. split; [exact Hmem|].
  vm_compute. reflexivity.
Defined.

(** X10.  A fence placed before or after an access changes neither the
    value the access returns nor the memory it leaves: on the fallback
    path, for each of the seven fences and for a store or a load, relaxed
    or ordered, the sequence has the outcome of the access alone. *)
Theorem fence_is_transparent tgt f o t a v s :
  fence_ready tgt f s ->
  outcome ((run_fence tgt f ;; store_op (fallback tgt) o t a v) s)
    = outcome (store_op (fallback tgt) o t a v s) /\
  outcome ((run_fence tgt f ;; load_op (fallback tgt) o t a) s)
    = outcome (load_op (fallback tgt) o t a s) /\
  outcome ((store_op (fallback tgt) o t a v ;; run_fence tgt f) s)
    = outcome (store_op (fallback tgt) o t a v s) /\
  outcome ((do x <- load_op (fallback tgt) o t a;
            run_fence tgt f ;; ret x) s)
    = outcome (load_op (fallback tgt) o t a s).
Proof.
  intros Hr.
  destruct (run_fence_run tgt f s Hr) as (fl & cl & Hrun & _ & _).
  assert (Hready : forall s1, mem s1 = mem s \/
                     (exists m', store tgt (mem s) t a v = Some m' /\ mem s1 = m') ->
                     sp s1 = sp s -> fence_ready tgt f s1).
  { intros s1 Hm Hsp. destruct f; try exact I.
    unfold fence_ready, stack_slot in *. rewrite Hsp.
    destruct Hm as [->|(m' & Hst & ->)]; [exact Hr|].
    unfold store in Hst.
    by rewrite (mappedb_store_bytes _ _ _ _ _ _ Hst). }
  repeat split.
  - unfold bind at 1. rewrite Hrun.
    rewrite (store_op_outcome tgt Fallback), (store_op_outcome tgt Fallback).
    reflexivity.
  - unfold bind at 1. rewrite Hrun.
    rewrite (load_op_outcome tgt Fallback), (load_op_outcome tgt Fallback).
    reflexivity.
  - unfold bind at 1.
    destruct (store tgt (mem s) t a v) as [m'|] eqn:Hst.
    + destruct (store_op_run tgt Fallback o t a v s m' Hst)
        as (s1 & H1 & E1 & Hsp & _).
      simpl in H1. rewrite H1.
      destruct (run_fence_run tgt f s1) as (fl1 & cl1 & Hrun1 & _ & _).
      { apply Hready; [right; eauto|exact Hsp]. }
      rewrite Hrun1. reflexivity.
    + pose proof (store_op_outcome tgt Fallback o t a v s) as Ho.
      rewrite Hst in Ho. apply outcome_None in Ho. simpl in Ho.
      rewrite Ho. reflexivity.
  - unfold bind at 1.
    destruct (load tgt (mem s) t a) as [x|] eqn:Hl.
    + destruct (load_op_run tgt Fallback o t a s x Hl)
        as (s1 & H1 & E1 & Hsp & _).
      simpl in H1. rewrite H1.
      destruct (run_fence_run tgt f s1) as (fl1 & cl1 & Hrun1 & _ & _).
      { apply Hready; [left; exact E1|exact Hsp]. }
      unfold bind. rewrite Hrun1. simpl. by rewrite E1.
    + pose proof (load_op_outcome tgt Fallback o t a s) as Ho.
      rewrite Hl in Ho. apply outcome_None in Ho. simpl in Ho.
      rewrite Ho. reflexivity.
Qed.

Lemma fence_is_transparent_witness :
  fence_ready X86_64 SmpMb sample_machine /\
  outcome ((C.io_uring_smp_mb X86_64 ;;
            C.IO_URING_READ_ONCE X86_64 U32 60) sample_machine)
  = outcome (C.IO_URING_READ_ONCE X86_64 U32 60 sample_machine).
Proof.
  assert (H : fence_ready X86_64 SmpMb sample_machine)
    by (vm_compute; reflexivity).
  split; [exact H|].
  exact (proj1 (proj2
    (fence_is_transparent X86_64 SmpMb false U32 60 0 sample_machine H))).
Defined.

(** X11.  [io_uring_smp_mb] is defined exactly when the four bytes its
    locked add names are mapped: those at the stack pointer on i386, those
    132 bytes below it otherwise.  Nothing else in the state matters, and
    no alignment is asked of the stack pointer. *)
Theorem smp_mb_defined_iff tgt s :
  is_Some (C.io_uring_smp_mb tgt s) <->
  mappedb (mem s) (sp s + match tgt with I386 => 0 | X86_64 => -132 end) 4
    = true.
Proof.
  split.
  - intros Hs. apply mappedb_load.
    destruct (load_bytes (mem s) _ 4) eqn:E; [eauto|].
    exfalso. destruct Hs as [x Hx]. revert Hx.
    destruct tgt; unfold C.io_uring_smp_mb, asm_volatile;
      cbn [exec_insns]; unfold bind;
      rewrite (lock_addl_unmapped _ _ _ E); discriminate.
  - intros Hm. destruct (smp_mb_run tgt s Hm) as [fl ->]. eauto.
Qed.

(** ** The fallback store when the value and the word differ in type *)

Section Operands.
Variable tgt : arch.
Implicit Types (m : gmap Z byte) (t : ctype) (a v : Z) (bs : list byte).

Lemma load_bytes_app m a n1 n2 b1 b2 :
  load_bytes m a n1 = Some b1 ->
  load_bytes m (a + Z.of_nat n1) n2 = Some b2 ->
  load_bytes m a (n1 + n2) = Some (b1 ++ b2).
Proof.
  revert a b1. induction n1 as [|n1 IH]; intros a b1.
  - simpl. intros [= <-]. by rewrite Z.add_0_r.
  - cbn [load_bytes Nat.add]. destruct (m !! a); [|discriminate].
    destruct (load_bytes m (a + 1) n1) as [l|] eqn:E; [|discriminate].
    intros [= <-] H2.
    rewrite (IH (a + 1) l E) by (rewrite <- H2; f_equal; lia). done.
Qed.

Lemma load_bytes_split m a n1 n2 bs :
  load_bytes m a (n1 + n2) = Some bs ->
  load_bytes m a n1 = Some (take n1 bs) /\
  load_bytes m (a + Z.of_nat n1) n2 = Some (drop n1 bs).
Proof.
  revert a bs. induction n1 as [|n1 IH]; intros a bs.
  - simpl. rewrite Z.add_0_r. by rewrite drop_0.
  - cbn [load_bytes Nat.add]. destruct (m !! a); [|discriminate].
    destruct (load_bytes m (a + 1) (n1 + n2)) as [l|] eqn:E; [|discriminate].
    intros [= <-]. destruct (IH _ _ E) as [H1 H2]. rewrite H1. simpl.
    split; [done|]. rewrite <- H2. f_equal. lia.
Qed.

Lemma take_le_split n k v :
  (n <= k)%nat -> take n (le_split k v) = le_split n v.
Proof.
  revert k v. induction n as [|n IH]; intros k v Hle; [done|].
  destruct k as [|k]; [lia|].
  change (le_split (S k) v) with (byte.of_Z v :: le_split k (Z.shiftr v 8)).
  change (le_split (S n) v) with (byte.of_Z v :: le_split n (Z.shiftr v 8)).
  simpl. f_equal. apply IH. lia.
Qed.

Lemma le_combine_drop n bs :
  (n <= length bs)%nat ->
  le_combine (drop n bs) = Z.shiftr (le_combine bs) (Z.of_nat n * 8).
Proof.
  intros Hle. rewrite <- (take_drop n bs) at 2.
  rewrite le_combine_app, length_take, Nat.min_l by done.
  rewrite Z.shiftr_lor, Z.shiftr_shiftl_l, Z.sub_diag, Z.shiftl_0_r by lia.
  pose proof (le_combine_bound (take n bs)) as B.
  rewrite length_take, Nat.min_l, (Z.mul_comm 8) in B by done.
  rewrite Z.shiftr_div_pow2, Z.div_small by lia. done.
Qed.

Lemma narrow_store_bytes m a n k bs v :
  load_bytes m a (n + k) = Some bs ->
  exists m',
    store_bytes m a (le_split n v) = Some m' /\
    load_bytes m' a (n + k) = Some (le_split n v ++ drop n bs).
Proof.
  intros Hbs. destruct (load_bytes_split _ _ _ _ _ Hbs) as [Hlo Hhi].
  assert (Hmap : mappedb m a (length (le_split n v)) = true).
  { rewrite length_le_split. apply mappedb_load. eauto. }
  apply mappedb_store in Hmap as [m' Hm']. exists m'. split; [done|].
  apply load_bytes_app.
  - pose proof (load_store_bytes _ _ _ _ Hm') as L.
    by rewrite length_le_split in L.
  - rewrite <- Hhi. apply load_bytes_ext. intros a' Ha'.
    eapply store_bytes_other; [exact Hm'|]. rewrite length_le_split. lia.
Qed.

Lemma load_store_wider m t t' a v m' :
  (sizeof tgt t <= sizeof tgt t')%nat ->
  store tgt m t' a v = Some m' ->
  load tgt m' t a = Some (wrap tgt t v).
Proof.
  intros Hle Hs. pose proof (store_bytes_of tgt _ _ _ _ _ Hs) as Hb.
  destruct (load_bytes_split m' a (sizeof tgt t)
              (sizeof tgt t' - sizeof tgt t)
              (le_split (sizeof tgt t') v)) as [Hlo _].
  { rewrite <- Hb. f_equal. lia. }
  rewrite take_le_split in Hlo by lia.
  unfold load. rewrite Hlo. simpl. by rewrite le_combine_split.
Qed.
End Operands.

(** X13.  On the fallback path a store is defined by the type of the
    value, not of the word: [IO_URING_WRITE_ONCE(var, val)] and
    [io_uring_smp_store_release(p, v)] yield a result exactly when the
    [sizeof(__typeof(val))] bytes from the address on are all mapped,
    whatever the type of the variable and whatever the alignment. *)
Theorem fallback_store_defined_iff tgt tvar tval a v s :
  (is_Some (C.IO_URING_WRITE_ONCE tgt tvar tval a v s)
     <-> mapped_word tgt (mem s) tval a) /\
  (is_Some (C.io_uring_smp_store_release tgt tvar tval a v s)
     <-> mapped_word tgt (mem s) tval a).
Proof.
  split.
  - unfold C.IO_URING_WRITE_ONCE.
    rewrite <- outcome_is_Some, outcome_volatile_store, fmap_is_Some.
    symmetry. apply mapped_store.
  - rewrite <- outcome_is_Some, outcome_fallback_release, fmap_is_Some.
    symmetry. apply mapped_store.
Qed.

(** X14.  A fallback store whose value type is no wider than the word
    replaces only the low bytes of the word.  On a valid word holding
    [old], after [IO_URING_WRITE_ONCE(var, val)] with [val] of a type of
    [k] bits, [IO_URING_READ_ONCE(var)] returns the word whose low [k] bits
    are those of [val] and whose remaining bits are those of [old]. *)
Theorem fallback_store_narrower_value tgt tvar tval a v s :
  (sizeof tgt tval <= sizeof tgt tvar)%nat ->
  valid_access tgt (mem s) tvar a ->
  exists old s1 s2,
    load tgt (mem s) tvar a = Some old /\
    C.IO_URING_WRITE_ONCE tgt tvar tval a v s = Some (tt, s1) /\
    C.IO_URING_READ_ONCE tgt tvar a s1 =
      Some (Z.lor (wrap tgt tval v)
              (Z.shiftl (Z.shiftr old (bits tgt tval)) (bits tgt tval)), s2).
Proof.
  intros Hle Hv. apply valid_access_mapped, mappedb_load in Hv as [bs Hbs].
  pose proof (load_bytes_length _ _ _ _ Hbs) as Hlen.
  destruct (narrow_store_bytes (mem s) a (sizeof tgt tval)
              (sizeof tgt tvar - sizeof tgt tval) bs v) as (m' & Hm' & Hnew).
  { rewrite <- Hbs. f_equal. lia. }
  replace (sizeof tgt tval + (sizeof tgt tvar - sizeof tgt tval))%nat
    with (sizeof tgt tvar) in Hnew by lia.
  exists (le_combine bs).
  eexists (log _ (with_mem m' s)), (log _ (log _ (with_mem m' s))).
  split; [|split].
  - unfold load. rewrite Hbs. reflexivity.
  - unfold C.IO_URING_WRITE_ONCE.
    apply (volatile_store_run tgt tval a v s m' Hm').
  - unfold C.IO_URING_READ_ONCE. apply volatile_load_run. simpl.
    unfold load. rewrite Hnew. simpl. f_equal.
    rewrite le_combine_app, le_combine_split, length_le_split.
    rewrite le_combine_drop by lia. reflexivity.
Qed.

Lemma fallback_store_narrower_value_witness :
  ((sizeof X86_64 U32 <= sizeof X86_64 U64)%nat /\
   valid_access X86_64 (mem sample_machine) U64 64) /\
  exists s1 s2,
    C.IO_URING_WRITE_ONCE X86_64 U64 U32 64 1 sample_machine = Some (tt, s1) /\
    C.IO_URING_READ_ONCE X86_64 U64 64 s1 = Some (13310875485991862273, s2).
Proof.
  assert (H1 : (sizeof X86_64 U32 <= sizeof X86_64 U64)%nat) by (simpl; lia).
  assert (H2 : valid_access X86_64 (mem sample_machine) U64 64)
    by (vm_compute; reflexivity).
  split; [split; assumption|].
  destruct (fallback_store_narrower_value X86_64 U64 U32 64 1 sample_machine
              H1 H2) as (old & s1 & s2 & Hold & Hw & Hr).
  exists s1, s2. split; [exact Hw|]. rewrite Hr.
  assert (old = 13310875489158414015) as ->
    by (vm_compute in Hold; congruence).
  reflexivity.
Defined.

(** X15.  A fallback store whose value type is wider than the word writes
    past the word.  Where the address is valid for the value's type, after
    [IO_URING_WRITE_ONCE(var, val)] the word reads as [val] converted to
    the word's type, and the bytes that follow the word, up to the size of
    [val], hold the remaining high bytes of [val]. *)
Theorem fallback_store_wider_value tgt tvar tval a v s :
  (sizeof tgt tvar <= sizeof tgt tval)%nat ->
  valid_access tgt (mem s) tval a ->
  exists s1 s2,
    C.IO_URING_WRITE_ONCE tgt tvar tval a v s = Some (tt, s1) /\
    C.IO_URING_READ_ONCE tgt tvar a s1 = Some (wrap tgt tvar v, s2) /\
    load_bytes (mem s1) (a + Z.of_nat (sizeof tgt tvar))
      (sizeof tgt tval - sizeof tgt tvar)
    = Some (le_split (sizeof tgt tval - sizeof tgt tvar)
              (Z.shiftr v (bits tgt tvar))).
Proof.
  intros Hle Hv.
  destruct (valid_access_store tgt _ _ _ v Hv) as [m' Hm'].
  pose proof (store_bytes_of tgt _ _ _ _ _ Hm') as Hb.
  destruct (load_bytes_split m' a (sizeof tgt tvar)
              (sizeof tgt tval - sizeof tgt tvar)
              (le_split (sizeof tgt tval) v)) as [_ Hhi].
  { rewrite <- Hb. f_equal. lia. }
  eexists (log _ (with_mem m' s)), (log _ (log _ (with_mem m' s))).
  split; [|split].
  - unfold C.IO_URING_WRITE_ONCE.
    apply (volatile_store_run tgt tval a v s m' Hm').
  - unfold C.IO_URING_READ_ONCE. apply volatile_load_run. simpl.
    apply (load_store_wider tgt _ _ _ _ _ _ Hle Hm').
  - simpl. rewrite Hhi. f_equal.
    rewrite skipn_le_split by lia. f_equal. f_equal. unfold bits. lia.
Qed.

Lemma fallback_store_wider_value_witness :
  ((sizeof X86_64 U8 <= sizeof X86_64 U32)%nat /\
   valid_access X86_64 (mem sample_machine) U32 64) /\
  exists s1 s2,
    C.IO_URING_WRITE_ONCE X86_64 U8 U32 64 1 sample_machine = Some (tt, s1) /\
    C.IO_URING_READ_ONCE X86_64 U8 64 s1 = Some (1, s2) /\
    load_bytes (mem s1) 65 3 = Some [Byte.x00; Byte.x00; Byte.x00].
Proof.
  assert (H1 : (sizeof X86_64 U8 <= sizeof X86_64 U32)%nat) by (simpl; lia).
  assert (H2 : valid_access X86_64 (mem sample_machine) U32 64)
    by (vm_compute; reflexivity).
  split; [split; assumption|].
  exact (fallback_store_wider_value X86_64 U8 U32 64 1 sample_machine H1 H2).
Defined.

(** ** The fallback store at mixed operand types, on the sample machine *)

(** C4.  On the fallback path write then read does not return the value
    written when the value's type is narrower than the word.  The 64-bit
    word at 64 holds 0xB8B9BABBBCBDBEBF; after
    [IO_URING_WRITE_ONCE(w, (uint32_t)1)], [IO_URING_READ_ONCE(w)] returns
    0xB8B9BABB00000001 and not 1: four bytes were stored.  The C++
    template, which stores at the type of the word, returns 1. *)
Theorem fallback_write_then_read_mixed :
  fst <$> C.IO_URING_READ_ONCE X86_64 U64 64 sample_machine
    = Some 13310875489158414015 /\
  fst <$> (C.IO_URING_WRITE_ONCE X86_64 U64 U32 64 1 ;;
           C.IO_URING_READ_ONCE X86_64 U64 64) sample_machine
    = Some 13310875485991862273 /\
  fst <$> (Cxx.IO_URING_WRITE_ONCE X86_64 U64 64 1 ;;
           Cxx.IO_URING_READ_ONCE X86_64 U64 64) sample_machine
    = Some 1.
Proof. repeat split; vm_compute; reflexivity. Qed.

(** C5.  The two realizations do not agree when the value's type differs
    from the word's.  Storing the 32-bit value 1 to the 64-bit word at 64,
    the native realization leaves the bytes of 1 in the whole word, the
    fallback realization leaves the old upper four bytes in place; this
    holds of the relaxed and of the release store, and the acquire loads
    that follow return 1 and 0xB8B9BABB00000001. *)
Theorem realizations_differ_mixed :
  exists sn sf sn' sf',
    Cxx.IO_URING_WRITE_ONCE X86_64 U64 64 1 sample_machine = Some (tt, sn) /\
    C.IO_URING_WRITE_ONCE X86_64 U64 U32 64 1 sample_machine = Some (tt, sf) /\
    load_bytes (mem sn) 64 8
      = Some [Byte.x01; Byte.x00; Byte.x00; Byte.x00;
              Byte.x00; Byte.x00; Byte.x00; Byte.x00] /\
    load_bytes (mem sf) 64 8
      = Some [Byte.x01; Byte.x00; Byte.x00; Byte.x00;
              Byte.xbb; Byte.xba; Byte.xb9; Byte.xb8] /\
    Cxx.io_uring_smp_store_release X86_64 U64 64 1 sample_machine
      = Some (tt, sn') /\
    C.io_uring_smp_store_release X86_64 U64 U32 64 1 sample_machine
      = Some (tt, sf') /\
    mem sn' = mem sn /\
    mem sf' = mem sf /\
    fst <$> Cxx.io_uring_smp_load_acquire X86_64 U64 64 sn' = Some 1 /\
    fst <$> C.io_uring_smp_load_acquire X86_64 U64 64 sf'
      = Some 13310875485991862273.
Proof.
  eexists _, _, _, _.
  repeat split; vm_compute; reflexivity.
Qed.

(** C8.  On the fallback path the store is generic in the type of the
    value, not of the word.  Storing the 32-bit value 1 to the 8-bit word
    at 64 overwrites the three bytes that follow the word as well; the C++
    template changes the byte of the word only. *)
Theorem fallback_write_byte_word_mixed :
  exists sf sn,
    C.IO_URING_WRITE_ONCE X86_64 U8 U32 64 1 sample_machine = Some (tt, sf) /\
    Cxx.IO_URING_WRITE_ONCE X86_64 U8 64 1 sample_machine = Some (tt, sn) /\
    load_bytes (mem sample_machine) 64 4
      = Some [Byte.xbf; Byte.xbe; Byte.xbd; Byte.xbc] /\
    load_bytes (mem sf) 64 4
      = Some [Byte.x01; Byte.x00; Byte.x00; Byte.x00] /\
    load_bytes (mem sn) 64 4
      = Some [Byte.x01; Byte.xbe; Byte.xbd; Byte.xbc].
Proof.
  eexists _, _.
  repeat split; vm_compute; reflexivity.
Qed.

(** ** Stores with their operand types *)

Section StoreAt.
Variable tgt : arch.
Variable r : realization.
Implicit Types (s : machine) (t tw tv : ctype) (a v : Z) (o : bool).

Lemma store_at_run o tw tv a v s m' :
  store tgt (mem s) (stored_type r tw tv) a v = Some m' ->
  exists s1, store_at tgt r o tw tv a v s = Some (tt, s1) /\
             mem s1 = m' /\ sp s1 = sp s /\ flags s1 = flags s.
Proof.
  intros H. destruct r, o; simpl in *.
  - unfold Cxx.io_uring_smp_store_release.
    rewrite (atomic_store_run tgt _ _ _ _ _ m') by done. eauto.
  - unfold Cxx.IO_URING_WRITE_ONCE.
    rewrite (atomic_store_run tgt _ _ _ _ _ m') by done. eauto.
  - unfold C.io_uring_smp_store_release, bind. rewrite barrier_run.
    unfold C.IO_URING_WRITE_ONCE.
    rewrite (volatile_store_run tgt _ _ _ _ m') by done. eauto.
  - unfold C.IO_URING_WRITE_ONCE.
    rewrite (volatile_store_run tgt _ _ _ _ m') by done. eauto.
Qed.

Lemma store_at_mapped o tw tv a v s :
  mapped_word tgt (mem s) (stored_type r tw tv) a ->
  exists m' s1,
    store tgt (mem s) (stored_type r tw tv) a v = Some m' /\
    store_at tgt r o tw tv a v s = Some (tt, s1) /\
    mem s1 = m' /\ sp s1 = sp s /\ flags s1 = flags s.
Proof.
  intros Hm. apply (mapped_store tgt _ _ _ v) in Hm as [m' Hm'].
  destruct (store_at_run o tw tv a v s m' Hm') as (s1 & H1).
  exists m', s1. tauto.
Qed.
End StoreAt.

(** X4.  The last store wins when it covers the word.  After two stores to
    a word, a load returns the second value reduced modulo [2 ^ bits] of
    the word's type, whatever the first store was, provided the type the
    second store goes through is at least as wide as the word.  That type
    is the word's own on the native path and the type of the value on the
    fallback path. *)
Theorem last_store_wins r tgt o1 o2 o3 tw tv1 tv2 a v1 v2 s :
  mapped_word tgt (mem s) (stored_type r tw tv1) a ->
  mapped_word tgt (mem s) (stored_type r tw tv2) a ->
  (sizeof tgt tw <= sizeof tgt (stored_type r tw tv2))%nat ->
  exists s',
    (store_at tgt r o1 tw tv1 a v1 ;;
     store_at tgt r o2 tw tv2 a v2 ;;
     load_op (realize tgt r) o3 tw a) s = Some (wrap tgt tw v2, s').
Proof.
  intros M1 M2 Hle.
  destruct (store_at_mapped tgt r o1 tw tv1 a v1 s M1)
    as (m1 & s1 & Hm1 & H1 & E1 & _).
  apply (mapped_after_store tgt _ _ _ _ _ (stored_type r tw tv2) a Hm1) in M2.
  rewrite <- E1 in M2.
  destruct (store_at_mapped tgt r o2 tw tv2 a v2 s1 M2)
    as (m2 & s2 & Hm2 & H2 & E2 & _).
  pose proof (load_store_wider tgt _ _ _ _ _ _ Hle Hm2) as Hl.
  rewrite <- E2 in Hl.
  destruct (load_op_run tgt r o3 tw a s2 _ Hl) as (s3 & H3 & _).
  exists s3. unfold bind. by rewrite H1, H2.
Qed.

Lemma last_store_wins_witness :
  (mapped_word X86_64 (mem sample_machine) (stored_type Fallback U16 U8) 32 /\
   mapped_word X86_64 (mem sample_machine) (stored_type Fallback U16 U32) 32 /\
   (sizeof X86_64 U16 <= sizeof X86_64 (stored_type Fallback U16 U32))%nat) /\
  exists s',
    (C.IO_URING_WRITE_ONCE X86_64 U16 U8 32 5 ;;
     C.io_uring_smp_store_release X86_64 U16 U32 32 65537 ;;
     C.io_uring_smp_load_acquire X86_64 U16 32) sample_machine
    = Some (1, s').
Proof.
  assert (H1 : mapped_word X86_64 (mem sample_machine)
                 (stored_type Fallback U16 U8) 32)
    by (vm_compute; reflexivity).
  assert (H2 : mapped_word X86_64 (mem sample_machine)
                 (stored_type Fallback U16 U32) 32)
    by (vm_compute; reflexivity).
  assert (H3 : (sizeof X86_64 U16
                <= sizeof X86_64 (stored_type Fallback U16 U32))%nat)
    by (simpl; lia).
  split; [repeat split; assumption|].
  exact (last_store_wins Fallback X86_64 false true true U16 U8 U32 32 5 65537
           sample_machine H1 H2 H3).
Defined.

(** X6.  A store changes only the bytes of the type it goes through (the
    word's type on the native path, the value's type on the fallback
    path): a load of any word that shares no byte with that range returns
    the same value whether or not the store was made just before. *)
Theorem store_leaves_other_words r tgt o1 o2 ta a tw tv b v s :
  mapped_word tgt (mem s) (stored_type r tw tv) b ->
  disjoint_words tgt ta a (stored_type r tw tv) b ->
  fst <$> (store_at tgt r o1 tw tv b v ;;
           load_op (realize tgt r) o2 ta a) s
  = fst <$> load_op (realize tgt r) o2 ta a s.
Proof.
  intros Hm Hd.
  destruct (store_at_mapped tgt r o1 tw tv b v s Hm)
    as (m' & s1 & Hm' & H1 & E1 & _).
  unfold bind. rewrite H1.
  pose proof (load_op_outcome tgt r o2 ta a s1) as L1.
  pose proof (load_op_outcome tgt r o2 ta a s) as L0.
  rewrite E1, (load_disjoint tgt _ _ _ _ _ _ _ Hm' Hd) in L1.
  destruct (load_op (realize tgt r) o2 ta a s1) as [[x1 ?]|],
    (load_op (realize tgt r) o2 ta a s) as [[x0 ?]|],
    (load tgt (mem s) ta a); simpl in *; congruence.
Qed.

Lemma store_leaves_other_words_witness :
  (mapped_word X86_64 (mem sample_machine) (stored_type Fallback U8 U32) 64 /\
   disjoint_words X86_64 U8 68 (stored_type Fallback U8 U32) 64) /\
  fst <$> (C.io_uring_smp_store_release X86_64 U8 U32 64 0 ;;
           C.io_uring_smp_load_acquire X86_64 U8 68) sample_machine
  = fst <$> C.io_uring_smp_load_acquire X86_64 U8 68 sample_machine.
Proof.
  assert (H1 : mapped_word X86_64 (mem sample_machine)
                 (stored_type Fallback U8 U32) 64)
    by (vm_compute; reflexivity).
  assert (H2 : disjoint_words X86_64 U8 68 (stored_type Fallback U8 U32) 64)
    by (unfold disjoint_words; simpl; lia).
  split; [split; assumption|].
  exact (store_leaves_other_words Fallback X86_64 true true U8 68 U8 U32 64 0
           sample_machine H1 H2).
Defined.

(** X7.  Two stores commute when the byte ranges they go through do not
    overlap (ranges of the words' types on the native path, of the values'
    types on the fallback path): in either order both succeed and leave the
    same memory. *)
Theorem disjoint_stores_commute r tgt o1 o2 twa tva a va twb tvb b vb s :
  mapped_word tgt (mem s) (stored_type r twa tva) a ->
  mapped_word tgt (mem s) (stored_type r twb tvb) b ->
  disjoint_words tgt (stored_type r twa tva) a (stored_type r twb tvb) b ->
  exists s1 s2,
    (store_at tgt r o1 twa tva a va ;;
     store_at tgt r o2 twb tvb b vb) s = Some (tt, s1) /\
    (store_at tgt r o2 twb tvb b vb ;;
     store_at tgt r o1 twa tva a va) s = Some (tt, s2) /\
    mem s1 = mem s2.
Proof.
  intros Ha Hb Hd.
  destruct (store_at_mapped tgt r o1 twa tva a va s Ha)
    as (m1 & sa & Hm1 & Ra & Ea & _).
  destruct (store_at_mapped tgt r o2 twb tvb b vb s Hb)
    as (m2 & sb & Hm2 & Rb & Eb & _).
  apply (mapped_after_store tgt _ _ _ _ _ (stored_type r twb tvb) b Hm1) in Hb.
  apply (mapped_after_store tgt _ _ _ _ _ (stored_type r twa tva) a Hm2) in Ha.
  rewrite <- Ea in Hb. rewrite <- Eb in Ha.
  destruct (store_at_mapped tgt r o2 twb tvb b vb sa Hb)
    as (m12 & s1 & Hm12 & R1 & E1 & _).
  destruct (store_at_mapped tgt r o1 twa tva a va sb Ha)
    as (m21 & s2 & Hm21 & R2 & E2 & _).
  exists s1, s2. unfold bind. rewrite Ra, Rb.
  split; [exact R1|]. split; [exact R2|].
  rewrite E1, E2. rewrite Ea in Hm12. rewrite Eb in Hm21.
  eapply (store_commute tgt);
    [exact Hd | exact Hm1 | exact Hm12 | exact Hm2 | exact Hm21].
Qed.

Lemma disjoint_stores_commute_witness :
  (mapped_word X86_64 (mem sample_machine) (stored_type Fallback U8 U32) 0 /\
   mapped_word X86_64 (mem sample_machine) (stored_type Fallback U64 U64) 8 /\
   disjoint_words X86_64 (stored_type Fallback U8 U32) 0
     (stored_type Fallback U64 U64) 8) /\
  exists s1 s2,
    (C.IO_URING_WRITE_ONCE X86_64 U8 U32 0 1 ;;
     C.io_uring_smp_store_release X86_64 U64 U64 8 2) sample_machine
      = Some (tt, s1) /\
    (C.io_uring_smp_store_release X86_64 U64 U64 8 2 ;;
     C.IO_URING_WRITE_ONCE X86_64 U8 U32 0 1) sample_machine
      = Some (tt, s2) /\
    mem s1 = mem s2.
Proof.
  assert (H1 : mapped_word X86_64 (mem sample_machine)
                 (stored_type Fallback U8 U32) 0)
    by (vm_compute; reflexivity).
  assert (H2 : mapped_word X86_64 (mem sample_machine)
                 (stored_type Fallback U64 U64) 8)
    by (vm_compute; reflexivity).
  assert (H3 : disjoint_words X86_64 (stored_type Fallback U8 U32) 0
                 (stored_type Fallback U64 U64) 8)
    by (unfold disjoint_words; simpl; lia).
  split; [repeat split; assumption|].
  exact (disjoint_stores_commute Fallback X86_64 false true U8 U32 0 1
           U64 U64 8 2 sample_machine H1 H2 H3).
Defined.
